(** * z80dismblr: register-flow state and memory model

    A shallow embedding of [src/disassembler/regs.ts] (class [Regs]) and
    [src/memory.ts] (class [Memory]), and the properties of the
    specification checked against them.

    - [Regs] objects own JavaScript arrays that are mutated in place and
      that [clone] must copy.  They are modelled over an explicit store of
      arrays ([heap]) with a small state monad, so that aliasing between two
      objects is expressible.
    - [Memory] is a single long-lived object; its methods are modelled by
      explicit state passing over a record. *)

From Stdlib Require Import ZArith Lia Strings.Byte.
From stdpp Require Import gmap list numbers strings.

Local Open Scope Z_scope.

(** ** JavaScript values and arrays *)

(** A value read from an array of numbers: a number, or [undefined] when
    the index holds nothing. *)
Definition jsval : Type := option Z.
Definition Undefined : jsval := None.
Definition Num (z : Z) : jsval := Some z.

(** [a[i]] as an r-value: [undefined] outside the array. *)
Definition js_get (l : list jsval) (i : nat) : jsval :=
  default Undefined (l !! i).

(** [a[i] = v]: in range the slot is overwritten; out of range a JavaScript
    array grows, the skipped indices staying empty. *)
Definition js_set (i : nat) (v : jsval) (l : list jsval) : list jsval :=
  if decide (i < length l)%nat
  then <[i := v]> l
  else l ++ replicate (i - length l) Undefined ++ [v].

(** [x != r] between a slot value and a number: [undefined] differs from
    every number. *)
Definition js_neq (v : jsval) (r : Z) : bool :=
  match v with
  | Some z => negb (z =? r)
  | None => true
  end.

(** ** The store of arrays *)

Definition loc : Type := positive.

(** Every array (and every [Set], kept as its elements in insertion order)
    lives in the store under its reference. *)
Abbreviation heap := (gmap loc (list jsval)).

(** Computations that read and write the store. *)
Definition M (A : Type) : Type := heap → A * heap.

#[global] Instance M_ret : MRet M := λ A (a : A) h, (a, h).
#[global] Instance M_bind : MBind M :=
  λ A B (k : A → M B) (m : M A) h, let '(a, h') := m h in k a h'.

Definition eval {A} (m : M A) (h : heap) : A := (m h).1.
Definition exec {A} (m : M A) (h : heap) : heap := (m h).2.

(** The contents of the array behind a reference. *)
Definition contents (h : heap) (a : loc) : list jsval := h !!! a.

Definition arr_get (a : loc) (i : nat) : M jsval :=
  λ h, (js_get (contents h a) i, h).

Definition arr_set (a : loc) (i : nat) (v : jsval) : M unit :=
  λ h, (tt, <[a := js_set i v (contents h a)]> h).

(** [a.push(v)] *)
Definition arr_push (a : loc) (v : jsval) : M unit :=
  λ h, (tt, <[a := contents h a ++ [v]]> h).

(** [s.add(v)] on a [Set]: nothing happens when [v] is already a member. *)
Definition set_add (s : loc) (v : jsval) : M unit :=
  λ h, (tt, <[s := if decide (v ∈ contents h s) then contents h s
                   else contents h s ++ [v]]> h).

(** A snapshot of the elements, for [for (const x of a)]. *)
Definition arr_elems (a : loc) : M (list jsval) :=
  λ h, (contents h a, h).

(** [new Array(n)], [[]], [new Set()]: a reference no live object has. *)
Definition alloc (l : list jsval) : M loc :=
  λ h, let a := fresh (dom h) in (a, <[a := l]> h).

(** [for (let r = lo; r < lo + n; r++) body(r)] *)
Fixpoint for_range (lo : nat) (n : nat) (body : nat → M unit) : M unit :=
  match n with
  | O => mret tt
  | S n' => body lo ;; for_range (S lo) n' body
  end.

(** [for (const x of xs) body(x)] over a snapshot [xs]. *)
Fixpoint for_each {A} (xs : list A) (body : A → M unit) : M unit :=
  match xs with
  | [] => mret tt
  | x :: xs' => body x ;; for_each xs' body
  end.

(** ** [regs.ts] *)

(** [enum REGISTER]: numbers at run time. *)
Module REGISTER.
Definition A : nat := 0.
Definition F : nat := 1.
Definition B : nat := 2.
Definition C : nat := 3.
Definition D : nat := 4.
Definition E : nat := 5.
Definition H : nat := 6.
Definition L : nat := 7.
Definition A2 : nat := 8.
Definition F2 : nat := 9.
Definition B2 : nat := 10.
Definition C2 : nat := 11.
Definition D2 : nat := 12.
Definition E2 : nat := 13.
Definition H2 : nat := 14.
Definition L2 : nat := 15.
Definition IXL : nat := 16.
Definition IXH : nat := 17.
Definition IYL : nat := 18.
Definition IYH : nat := 19.
Definition REGS_MAX : nat := 20.
End REGISTER.

Abbreviation REGS_MAX := REGISTER.REGS_MAX.

(** A [Regs] instance: the references held in its four fields.  No method
    reassigns a field; they only mutate the containers behind them. *)
Record Regs : Type := mkRegs {
  regs : loc;
  usedAddresses : loc;
  inputRegs : loc;
  stack : loc
}.

(** [Regs.names] *)
Definition names : list string :=
  ["A"; "F"; "B"; "C"; "D"; "E"; "H"; "L";
   "A'"; "F'"; "B'"; "C'"; "D'"; "E'"; "H'"; "L'";
   "IXL"; "IXH"; "IYL"; "IYH"].

(** [new Regs()]: the field initialisers, then the constructor body.  The
    closing [assert(Regs.names.length == REGISTER.REGS_MAX)] compares two
    constants and holds (lemma [names_length]), so the constructor always
    returns. *)
Definition new_Regs : M Regs :=
  a_regs ← alloc (replicate REGS_MAX Undefined);
  a_used ← alloc [];
  a_input ← alloc [];
  a_stack ← alloc [];
  for_range 0 REGS_MAX (λ r, arr_set a_regs r (Num (Z.of_nat r)));;
  mret (mkRegs a_regs a_used a_input a_stack).

Definition isUsed (this : Regs) (r : nat) : M bool :=
  v ← arr_get (regs this) r;
  mret (js_neq v (Z.of_nat r)).

Definition use (this : Regs) (r : nat) : M unit :=
  arr_set (regs this) r (Num (-1)).

Definition exxAF (this : Regs) : M unit :=
  a ← arr_get (regs this) REGISTER.A;
  f ← arr_get (regs this) REGISTER.F;
  va2 ← arr_get (regs this) REGISTER.A2;
  arr_set (regs this) REGISTER.A va2;;
  vf2 ← arr_get (regs this) REGISTER.F2;
  arr_set (regs this) REGISTER.F vf2;;
  arr_set (regs this) REGISTER.A2 a;;
  arr_set (regs this) REGISTER.F2 f.

Definition exx (this : Regs) : M unit :=
  let diff := (REGISTER.B2 - REGISTER.B)%nat in
  for_range REGISTER.B (S REGISTER.L - REGISTER.B) (λ r,
    tmp ← arr_get (regs this) r;
    v ← arr_get (regs this) (r + diff);
    arr_set (regs this) r v;;
    arr_set (regs this) (r + diff) tmp).

(** [usedRegs]: the local [Set] is returned by value. *)
Fixpoint usedRegs_loop (this : Regs) (r : nat) (n : nat) (acc : gset nat)
  : M (gset nat) :=
  match n with
  | O => mret acc
  | S n' =>
      v ← arr_get (regs this) r;
      usedRegs_loop this (S r) n'
        (if js_neq v (Z.of_nat r) then acc ∪ {[r]} else acc)
  end.

Definition usedRegs (this : Regs) : M (gset nat) :=
  usedRegs_loop this 0 REGS_MAX ∅.

(** [clone].  The three [for ... of] loops read a container of [this] and
    write to one of [nRegs], which the constructor has just allocated, so
    each loop runs over the elements its container had on entry. *)
Definition clone (this : Regs) : M Regs :=
  nRegs ← new_Regs;
  for_range 0 REGS_MAX (λ r,
    v ← arr_get (regs this) r;
    arr_set (regs nRegs) r v);;
  addrs ← arr_elems (usedAddresses this);
  for_each addrs (λ addr, arr_push (usedAddresses nRegs) addr);;
  inps ← arr_elems (inputRegs this);
  for_each inps (λ reg, set_add (inputRegs nRegs) reg);;
  vals ← arr_elems (stack this);
  for_each vals (λ val, arr_push (stack nRegs) val);;
  mret nRegs.

Definition merge (this otherRegs : Regs) : M unit :=
  for_range 0 REGS_MAX (λ r,
    v ← arr_get (regs otherRegs) r;
    if js_neq v (Z.of_nat r)
    then arr_set (regs this) r v
    else mret tt).

(** The operations that evolve one instance along a traced path. *)
Inductive op : Type :=
  | Use (r : nat)
  | ExxAF
  | Exx
  | Merge (otherRegs : Regs).

Definition do_op (this : Regs) (o : op) : M unit :=
  match o with
  | Use r => use this r
  | ExxAF => exxAF this
  | Exx => exx this
  | Merge otherRegs => merge this otherRegs
  end.

Definition do_ops (this : Regs) (ops : list op) : M unit :=
  for_each ops (do_op this).

(** ** Vocabulary for the properties of [Regs] *)

(** The slot of register [r] in the instance [this]. *)
Definition slot (h : heap) (this : Regs) (r : nat) : jsval :=
  js_get (contents h (regs this)) r.

(** [exxAF] is the permutation of slots that exchanges A with A' and F
    with F'. *)
Definition swapAF (i : nat) : nat :=
  if decide (i = REGISTER.A) then REGISTER.A2
  else if decide (i = REGISTER.F) then REGISTER.F2
  else if decide (i = REGISTER.A2) then REGISTER.A
  else if decide (i = REGISTER.F2) then REGISTER.F
  else i.

(** [exx] is the permutation of slots that exchanges B..L with B'..L'. *)
Definition swapX (i : nat) : nat :=
  if decide (REGISTER.B ≤ i ≤ REGISTER.L)%nat then (i + 8)%nat
  else if decide (REGISTER.B2 ≤ i ≤ REGISTER.L2)%nat then (i - 8)%nat
  else i.

(** The slots after the iterations [r < k] of the loop of [exx]. *)
Definition swapX_upto (k i : nat) : nat :=
  if decide (REGISTER.B ≤ i < k)%nat then (i + 8)%nat
  else if decide (REGISTER.B2 ≤ i < k + 8)%nat then (i - 8)%nat
  else i.

(** [merge]: a slot of [otherRegs] that differs from its own number
    overwrites the slot of [this]; the other slots of [this] stay. *)
Definition merged_slot (va vb : jsval) (r : nat) : jsval :=
  if js_neq vb (Z.of_nat r) then vb else va.

(** The containers an instance refers to. *)
Definition fields (this : Regs) : list loc :=
  [regs this; usedAddresses this; inputRegs this; stack this].

(** What the constructor establishes and the methods keep: four containers
    of its own, all allocated, [REGS_MAX] slots, and an [inputRegs] without
    repetition. *)
Definition wf_Regs (h : heap) (this : Regs) : Prop :=
  NoDup (fields this)
  ∧ Forall (λ c, is_Some (h !! c)) (fields this)
  ∧ length (contents h (regs this)) = REGS_MAX
  ∧ NoDup (contents h (inputRegs this)).

#[global] Instance wf_Regs_dec h this : Decision (wf_Regs h this).
Proof. unfold wf_Regs. apply _. Defined.

(** The registers whose slots an operation exchanges. *)
Definition exchanged_by (o : op) : list nat :=
  match o with
  | ExxAF => [REGISTER.A; REGISTER.F; REGISTER.A2; REGISTER.F2]
  | Exx => [REGISTER.B; REGISTER.C; REGISTER.D; REGISTER.E; REGISTER.H;
            REGISTER.L; REGISTER.B2; REGISTER.C2; REGISTER.D2; REGISTER.E2;
            REGISTER.H2; REGISTER.L2]
  | Use _ | Merge _ => []
  end.

(** The calls the type [REGISTER] admits: [use] takes a register. *)
Definition op_ok (o : op) : Prop :=
  match o with
  | Use r => (r < REGS_MAX)%nat
  | ExxAF | Exx | Merge _ => True
  end.

(** Any change of the slots of an instance: a method call, or a direct
    assignment [regs[r] = v] by the caller. *)
Inductive mutation : Type :=
  | Call (o : op)
  | Assign (r : nat) (v : jsval).

Definition do_mutation (this : Regs) (mu : mutation) : M unit :=
  match mu with
  | Call o => do_op this o
  | Assign r v => arr_set (regs this) r v
  end.

Definition mutate (this : Regs) (mus : list mutation) : M unit :=
  for_each mus (do_mutation this).

(** ** [memory.ts] *)

(** Addresses, lengths and attributes are JavaScript numbers; the
    disassembler passes integers, which are modelled by [Z]. *)

Definition MAX_MEM_SIZE : Z := 0x10000.

(** [enum MemAttribute] *)
Module MemAttribute.
Definition UNUSED : Z := 0.
Definition ASSIGNED : Z := 0x01.
Definition CODE : Z := 0x02.
Definition CODE_FIRST : Z := 0x04.
Definition DATA : Z := 0x08.
End MemAttribute.

(** The bit operators of JavaScript work on the operands reduced to
    signed 32-bit integers. *)
Definition to_int32 (z : Z) : Z := (z + 2^31) mod 2^32 - 2^31.
Definition js_and (a b : Z) : Z := Z.land (to_int32 a) (to_int32 b).
Definition js_or (a b : Z) : Z := Z.lor (to_int32 a) (to_int32 b).

(** [memory] is the [Uint8Array]; [memoryAttr] is an ordinary array, kept
    as the map from the indices that hold something to what they hold. *)
Record Memory : Type := mkMemory {
  memory : list byte;
  memoryAttr : gmap Z Z
}.

#[global] Instance byte_inhabited : Inhabited byte := populate x00.

(** The number a byte of the typed array reads as. *)
Definition byte_val (b : byte) : Z := Z.of_N (Byte.to_N b).

(** [this.memory[i]].  Every index the methods use is masked to 16 bits and
    so lies inside a typed array of [MAX_MEM_SIZE] elements (lemma
    [mask_in_bounds]); the default of the lookup is never returned there. *)
Definition mem_read (m : Memory) (i : Z) : Z :=
  byte_val (memory m !!! Z.to_nat i).

(** [this.memoryAttr[i] |= attr]; an empty index reads as [undefined],
    which [|] takes for 0. *)
Definition attr_or (i : Z) (attr : Z) (ma : gmap Z Z) : gmap Z Z :=
  <[i := js_or (default 0 (ma !! i)) attr]> ma.

(** The constructor: the field initialisers, then the loop. *)
Fixpoint new_Memory_loop (n : nat) (i : Z) (m : Memory) : Memory :=
  match n with
  | O => m
  | S n' =>
      new_Memory_loop n' (i + 1)
        (mkMemory (<[Z.to_nat i := x00]> (memory m))
                  (<[i := MemAttribute.UNUSED]> (memoryAttr m)))
  end.

Definition new_Memory : Memory :=
  new_Memory_loop (Z.to_nat MAX_MEM_SIZE) 0
    (mkMemory (replicate (Z.to_nat MAX_MEM_SIZE) x00) ∅).

Fixpoint setMemory_loop (bytes : list byte) (origin i : Z) (m : Memory) : Memory :=
  match bytes with
  | [] => m
  | b :: rest =>
      let addr := js_and (origin + i) (MAX_MEM_SIZE - 1) in
      setMemory_loop rest origin (i + 1)
        (mkMemory (<[Z.to_nat addr := b]> (memory m))
                  (attr_or addr MemAttribute.ASSIGNED (memoryAttr m)))
  end.

Definition setMemory (m : Memory) (origin : Z) (bytes : list byte) : Memory :=
  setMemory_loop bytes origin 0 m.

Definition getValueAt (m : Memory) (address : Z) : Z :=
  mem_read m (js_and address (MAX_MEM_SIZE - 1)).

Definition getWordValueAt (m : Memory) (address : Z) : Z :=
  let word := mem_read m (js_and address (MAX_MEM_SIZE - 1))
              + 256 * mem_read m (js_and (address + 1) (MAX_MEM_SIZE - 1)) in
  word.

(** Modelled from the spec: [label.ts] is not among the sources.  These are
    the members of [LabelType] that [getOpcodeAt] names; [OTHER] stands for
    any operand kind it does not name. *)
Inductive LabelType : Type :=
  | NONE
  | CODE_LBL
  | CODE_SUB
  | DATA_LBL
  | NUMBER_WORD
  | CODE_RELATIVE_LBL
  | CODE_RELATIVE_LOOP
  | NUMBER_BYTE
  | PORT_LBL
  | OTHER (tag : Z).

(** Modelled from the spec: [opcodes.ts] is not among the sources.  The
    opcode descriptor holds the raw byte, the operand kind and the resolved
    value; [getOpcodeAt] reads [valueType] and assigns [value]. *)
Record Opcode : Type := mkOpcode {
  code : Z;
  valueType : LabelType;
  value : Z
}.

Definition set_value (opcode : Opcode) (v : Z) : Opcode :=
  mkOpcode (code opcode) (valueType opcode) v.

(** What a call comes to: a returned value, or the [AssertionError] that
    [assert(false)] throws. *)
Inductive outcome (A : Type) : Type :=
  | Returns (a : A)
  | AssertionError.
Arguments Returns {A} a.
Arguments AssertionError {A}.

(** [getOpcodeAt]; the table [Opcode.fromValue] of [opcodes.ts] is a
    parameter. *)
Definition getOpcodeAt (fromValue : Z → Opcode) (m : Memory) (address : Z)
  : outcome Opcode :=
  let val := mem_read m (js_and address (MAX_MEM_SIZE - 1)) in
  let opcode := fromValue val in
  match valueType opcode with
  | NONE => Returns opcode
  | CODE_LBL | CODE_SUB | DATA_LBL | NUMBER_WORD =>
      Returns (set_value opcode (getWordValueAt m (address + 1)))
  | CODE_RELATIVE_LBL | CODE_RELATIVE_LOOP | NUMBER_BYTE =>
      let opcode := set_value opcode (getValueAt m (address + 1)) in
      let opcode :=
        if 128 <=? value opcode
        then set_value opcode (value opcode - 256) else opcode in
      let opcode :=
        match valueType opcode with
        | CODE_RELATIVE_LBL | CODE_RELATIVE_LOOP =>
            set_value opcode (value opcode + (address + 2))
        | _ => opcode
        end in
      Returns opcode
  | PORT_LBL => Returns (set_value opcode (getValueAt m (address + 1)))
  | OTHER _ => AssertionError
  end.

Definition getAttributeAt (m : Memory) (address : Z) : option Z :=
  let attr := memoryAttr m !! address in
  attr.

Fixpoint addAttributeAt_loop (n : nat) (address : Z) (attr : Z)
    (ma : gmap Z Z) : gmap Z Z :=
  match n with
  | O => ma
  | S n' => addAttributeAt_loop n' (address + 1) attr (attr_or address attr ma)
  end.

Definition addAttributeAt (m : Memory) (address length attr : Z) : Memory :=
  mkMemory (memory m)
    (addAttributeAt_loop (Z.to_nat length) address attr (memoryAttr m)).

(** ** Vocabulary for the properties of [Memory] *)

(** The memory the constructor leaves: zero bytes and [UNUSED] attributes
    at the indices below [MAX_MEM_SIZE]. *)
Fixpoint init_attr (n : nat) (i : Z) (ma : gmap Z Z) : gmap Z Z :=
  match n with
  | O => ma
  | S n' => init_attr n' (i + 1) (<[i := MemAttribute.UNUSED]> ma)
  end.

Definition blank_Memory : Memory :=
  mkMemory (replicate (Z.to_nat MAX_MEM_SIZE) x00)
           (init_attr (Z.to_nat MAX_MEM_SIZE) 0 ∅).

(** The typed array keeps its [MAX_MEM_SIZE] elements for life. *)
Definition wf_Memory (m : Memory) : Prop :=
  Z.of_nat (length (memory m)) = MAX_MEM_SIZE.

(** The signed reading of a byte, in the words of the specification. *)
Definition signed_byte (b : Z) : Z := if decide (b >= 128) then b - 256 else b.

(** The operand kinds [getOpcodeAt] recognises. *)
Definition recognized : list LabelType :=
  [NONE; CODE_LBL; CODE_SUB; DATA_LBL; NUMBER_WORD;
   CODE_RELATIVE_LBL; CODE_RELATIVE_LOOP; NUMBER_BYTE; PORT_LBL].

#[global] Instance LabelType_eq_dec : EqDecision LabelType.
Proof. solve_decision. Defined.

(** A few rows of a decode table, to run [getOpcodeAt] on. *)
Definition sample_table (v : Z) : Opcode :=
  mkOpcode v
    (if decide (v = 0x18) then CODE_RELATIVE_LBL
     else if decide (v = 0x10) then CODE_RELATIVE_LOOP
     else if decide (v = 0x3E) then NUMBER_BYTE
     else if decide (v = 0xD3) then PORT_LBL
     else if decide (v = 0xC3) then CODE_LBL
     else if decide (v = 0xED) then OTHER 0
     else NONE)
    0.

(** The two relative operand kinds. *)
Definition is_relative (t : LabelType) : bool :=
  match t with
  | CODE_RELATIVE_LBL | CODE_RELATIVE_LOOP => true
  | _ => false
  end.

(** * Properties *)

(** ** Arrays as total maps from indices to values *)

Lemma js_get_set_eq i v l : js_get (js_set i v l) i = v.
Proof.
  unfold js_get, js_set. case_decide as Hi.
  - by rewrite list_lookup_insert_eq.
  - rewrite lookup_app_r by lia.
    rewrite lookup_app_r; rewrite length_replicate; [|lia].
    by replace (i - length l - (i - length l))%nat with 0%nat by lia.
Qed.

Lemma js_get_set_ne i j v l : i ≠ j → js_get (js_set i v l) j = js_get l j.
Proof.
  intros Hij. unfold js_get, js_set. case_decide as Hi.
  - by rewrite list_lookup_insert_ne.
  - destruct (decide (j < length l)%nat) as [Hj|Hj].
    + by rewrite lookup_app_l.
    + rewrite (lookup_ge_None_2 l j) by lia. simpl.
      rewrite lookup_app_r by lia.
      destruct (decide (j - length l < i - length l)%nat) as [Hlt|Hge].
      * rewrite lookup_app_l by (rewrite length_replicate; lia).
        by rewrite lookup_replicate_2.
      * rewrite lookup_app_r; rewrite length_replicate; [|lia].
        rewrite lookup_ge_None_2; [done|simpl; lia].
Qed.

Lemma js_get_set i j v l :
  js_get (js_set i v l) j = if decide (i = j) then v else js_get l j.
Proof.
  case_decide as Hij; [subst; apply js_get_set_eq | by apply js_get_set_ne].
Qed.

Lemma js_set_length i v l :
  (i < length l)%nat → length (js_set i v l) = length l.
Proof. intros Hi. unfold js_set. rewrite decide_True by done. apply length_insert. Qed.

(** Two arrays of the same length with the same reads are the same array. *)
Lemma js_get_ext (l1 l2 : list jsval) :
  length l1 = length l2 → (∀ i, js_get l1 i = js_get l2 i) → l1 = l2.
Proof.
  intros Hlen Hget. apply list_eq. intros i.
  destruct (decide (i < length l1)%nat) as [Hi|Hi].
  - destruct (lookup_lt_is_Some_2 l1 i Hi) as [x Hx].
    destruct (lookup_lt_is_Some_2 l2 i ltac:(lia)) as [y Hy].
    specialize (Hget i). unfold js_get in Hget. rewrite Hx, Hy in Hget.
    simpl in Hget. congruence.
  - rewrite !lookup_ge_None_2; [done|lia..].
Qed.

(** A slot holding the used marker differs from every register number. *)
Lemma js_neq_marker (r : nat) : js_neq (Num (-1)) (Z.of_nat r) = true.
Proof. unfold js_neq, Num. rewrite (proj2 (Z.eqb_neq _ _)); [done|lia]. Qed.

Lemma js_neq_self (r : nat) : js_neq (Num (Z.of_nat r)) (Z.of_nat r) = false.
Proof. unfold js_neq, Num. by rewrite Z.eqb_refl. Qed.

(** ** The store *)

Lemma contents_insert_eq (h : heap) a l : contents (<[a := l]> h) a = l.
Proof. unfold contents. by rewrite lookup_total_insert_eq. Qed.

Lemma contents_insert_ne (h : heap) a b l :
  a ≠ b → contents (<[a := l]> h) b = contents h b.
Proof. intros. unfold contents. by rewrite lookup_total_insert_ne. Qed.

Lemma contents_lookup (h : heap) a : is_Some (h !! a) → h !! a = Some (contents h a).
Proof.
  intros [l Hl]. unfold contents. rewrite Hl. f_equal. symmetry.
  by apply lookup_total_correct.
Qed.

Lemma contents_agree (h h' : heap) a : h' !! a = h !! a → contents h' a = contents h a.
Proof. unfold contents. rewrite !lookup_total_alt. by intros ->. Qed.

(** ** Running monadic code *)

Lemma exec_bind {A B} (m : M A) (k : A → M B) h :
  exec (m ≫= k) h = exec (k (eval m h)) (exec m h).
Proof. unfold exec, eval, mbind, M_bind. by destruct (m h). Qed.

Lemma eval_bind {A B} (m : M A) (k : A → M B) h :
  eval (m ≫= k) h = eval (k (eval m h)) (exec m h).
Proof. unfold exec, eval, mbind, M_bind. by destruct (m h). Qed.

Lemma exec_ret {A} (a : A) h : exec (mret a) h = h.
Proof. done. Qed.

Lemma eval_ret {A} (a : A) h : eval (mret a) h = a.
Proof. done. Qed.

Lemma exec_arr_get a i h : exec (arr_get a i) h = h.
Proof. done. Qed.

Lemma eval_arr_get a i h : eval (arr_get a i) h = js_get (contents h a) i.
Proof. done. Qed.

Lemma exec_arr_set a i v h :
  exec (arr_set a i v) h = <[a := js_set i v (contents h a)]> h.
Proof. done. Qed.

Lemma exec_arr_elems a h : exec (arr_elems a) h = h.
Proof. done. Qed.

Lemma eval_arr_elems a h : eval (arr_elems a) h = contents h a.
Proof. done. Qed.

Lemma exec_arr_push a v h :
  exec (arr_push a v) h = <[a := contents h a ++ [v]]> h.
Proof. done. Qed.

Lemma exec_for_range_S lo n body h :
  exec (for_range lo (S n) body) h = exec (for_range (S lo) n body) (exec (body lo) h).
Proof. simpl. by rewrite exec_bind. Qed.

Ltac msimpl :=
  repeat first
    [ rewrite exec_bind | rewrite eval_bind | rewrite exec_ret
    | rewrite eval_ret | rewrite exec_arr_get | rewrite eval_arr_get
    | rewrite exec_arr_elems | rewrite eval_arr_elems ].

(** Loop invariants for [for_range]. *)
Lemma for_range_inv (P : nat → heap → Prop) body n : ∀ lo h,
  P lo h →
  (∀ i h', (lo ≤ i < lo + n)%nat → P i h' → P (S i) (exec (body i) h')) →
  P (lo + n)%nat (exec (for_range lo n body) h).
Proof.
  induction n as [|n IH]; intros lo h Hlo Hstep.
  - by rewrite Nat.add_0_r.
  - rewrite exec_for_range_S.
    replace (lo + S n)%nat with (S lo + n)%nat by lia.
    apply IH.
    + apply Hstep; [lia|done].
    + intros i h' Hi. apply Hstep. lia.
Qed.

Ltac loop_inv P H :=
  lazymatch goal with
  | |- context [exec (for_range ?lo ?n ?body) ?h] =>
      assert (P (lo + n)%nat (exec (for_range lo n body) h)) as H;
      [apply (for_range_inv P body n lo h)|]
  end.

(** ** What each [Regs] method does to the store *)

Lemma eval_isUsed this r h :
  eval (isUsed this r) h = js_neq (slot h this r) (Z.of_nat r).
Proof. done. Qed.

Lemma exec_isUsed this r h : exec (isUsed this r) h = h.
Proof. done. Qed.

Lemma slot_arr_set this i v h r :
  slot (exec (arr_set (regs this) i v) h) this r
  = if decide (i = r) then v else slot h this r.
Proof.
  unfold slot. rewrite exec_arr_set, contents_insert_eq. apply js_get_set.
Qed.

Lemma arr_set_frame a i v h c :
  c ≠ a → exec (arr_set a i v) h !! c = h !! c.
Proof. intros Hc. rewrite exec_arr_set. by rewrite lookup_insert_ne. Qed.

(** [use] *)
Lemma slot_use this r h i :
  slot (exec (use this r) h) this i
  = if decide (r = i) then Num (-1) else slot h this i.
Proof. apply slot_arr_set. Qed.

Lemma slot_exxAF this h i :
  slot (exec (exxAF this) h) this i = slot h this (swapAF i).
Proof.
  unfold exxAF. msimpl. rewrite !slot_arr_set. unfold slot.
  rewrite exec_arr_set, contents_insert_eq, js_get_set.
  unfold swapAF, REGISTER.A, REGISTER.F, REGISTER.A2, REGISTER.F2.
  repeat case_decide; subst; try done; lia.
Qed.

Lemma exxAF_frame this h c :
  c ≠ regs this → exec (exxAF this) h !! c = h !! c.
Proof.
  intros Hc. unfold exxAF. msimpl. by rewrite !arr_set_frame.
Qed.

Lemma slot_exx this h i :
  slot (exec (exx this) h) this i = slot h this (swapX i).
Proof.
  unfold exx.
  pose (P := λ (k : nat) (h' : heap),
    ∀ j, slot h' this j = slot h this (swapX_upto k j)).
  loop_inv P HP.
  - intros j. unfold swapX_upto, REGISTER.B, REGISTER.B2.
    repeat case_decide; done || lia.
  - intros k h' Hk IH j. msimpl.
    rewrite !slot_arr_set.
    fold (slot h' this k). fold (slot h' this (k + (REGISTER.B2 - REGISTER.B))).
    rewrite !IH.
    unfold swapX_upto, REGISTER.B, REGISTER.B2, REGISTER.L in *.
    repeat case_decide; subst; try lia; f_equal; lia.
  - rewrite (HP i). f_equal.
    unfold swapX, swapX_upto, REGISTER.B, REGISTER.B2, REGISTER.L, REGISTER.L2.
    repeat case_decide; done || lia.
Qed.

Lemma for_range_frame body n lo h c :
  (∀ i h', exec (body i) h' !! c = h' !! c) →
  exec (for_range lo n body) h !! c = h !! c.
Proof.
  intros Hbody.
  apply (for_range_inv (λ _ h', h' !! c = h !! c) body n lo h); [done|].
  intros i h' _ IH. by rewrite Hbody.
Qed.

Lemma exx_frame this h c :
  c ≠ regs this → exec (exx this) h !! c = h !! c.
Proof.
  intros Hc. unfold exx. apply for_range_frame.
  intros i h'. msimpl. by rewrite !arr_set_frame.
Qed.

Lemma merge_frame this otherRegs h c :
  c ≠ regs this → exec (merge this otherRegs) h !! c = h !! c.
Proof.
  intros Hc. unfold merge. apply for_range_frame.
  intros i h'. msimpl. case (js_neq _ _); msimpl; [by rewrite arr_set_frame|done].
Qed.

Lemma slot_merge this otherRegs h i :
  slot (exec (merge this otherRegs) h) this i
  = if decide (i < REGS_MAX)%nat
    then merged_slot (slot h this i) (slot h otherRegs i) i
    else slot h this i.
Proof.
  unfold merge.
  pose (P := λ (k : nat) (h' : heap),
    (∀ c, c ≠ regs this → h' !! c = h !! c) ∧
    ∀ j, slot h' this j
         = if decide (j < k)%nat
           then merged_slot (slot h this j) (slot h otherRegs j) j
           else slot h this j).
  loop_inv P HP.
  - split; [done|]. intros j. by rewrite decide_False by lia.
  - intros k h' Hk [Hfr IH]. msimpl.
    assert (js_get (contents h' (regs otherRegs)) k = slot h otherRegs k) as ->.
    { destruct (decide (regs otherRegs = regs this)) as [Heq|Hne].
      - unfold slot. rewrite Heq. fold (slot h' this k) (slot h this k).
        by rewrite IH, decide_False by lia.
      - unfold slot. f_equal. apply contents_agree. by apply Hfr. }
    split.
    + intros c Hc. case (js_neq _ _); msimpl; [|by apply Hfr].
      rewrite arr_set_frame by done. by apply Hfr.
    + intros j.
      destruct (js_neq (slot h otherRegs k) (Z.of_nat k)) eqn:Hused; msimpl.
      * rewrite slot_arr_set, IH.
        unfold merged_slot.
        repeat case_decide; subst; try lia; try done.
        by rewrite Hused.
      * rewrite IH. unfold merged_slot.
        destruct (decide (j = k)) as [->|Hjk].
        -- rewrite decide_False, decide_True by lia. by rewrite Hused.
        -- repeat case_decide; done || lia.
  - apply (proj2 HP).
Qed.

(** [usedRegs] reads the store and leaves it as it is. *)
Lemma exec_usedRegs_loop this n : ∀ r acc h,
  exec (usedRegs_loop this r n acc) h = h.
Proof.
  induction n as [|n IH]; intros r acc h; [done|].
  simpl. msimpl. apply IH.
Qed.

Lemma exec_usedRegs this h : exec (usedRegs this) h = h.
Proof. unfold usedRegs. apply exec_usedRegs_loop. Qed.

Lemma elem_of_usedRegs_loop this n : ∀ r acc h x,
  x ∈ eval (usedRegs_loop this r n acc) h
  ↔ x ∈ acc ∨ ((r ≤ x < r + n)%nat ∧ js_neq (slot h this x) (Z.of_nat x) = true).
Proof.
  induction n as [|n IH]; intros r acc h x.
  - simpl. rewrite eval_ret. split; [by left|]. intros [?|[? _]]; [done|lia].
  - simpl. msimpl. rewrite IH. fold (slot h this r).
    destruct (js_neq (slot h this r) (Z.of_nat r)) eqn:Hr.
    + rewrite elem_of_union, elem_of_singleton. split.
      * intros [[?| ->]|[? ?]]; [by left|right; split; [lia|done]|right; split; [lia|done]].
      * intros [?|[Hx Hu]]; [by left; left|].
        destruct (decide (x = r)) as [->|?]; [by left; right|right; split; [lia|done]].
    + split.
      * intros [?|[? ?]]; [by left|right; split; [lia|done]].
      * intros [?|[Hx Hu]]; [by left|].
        destruct (decide (x = r)) as [->|?]; [congruence|right; split; [lia|done]].
Qed.

(** The set returned by [usedRegs] holds the registers [isUsed] accepts. *)
Lemma elem_of_usedRegs this h x :
  x ∈ eval (usedRegs this) h
  ↔ (x < REGS_MAX)%nat ∧ eval (isUsed this x) h = true.
Proof.
  unfold usedRegs. rewrite elem_of_usedRegs_loop, eval_isUsed.
  split; [intros [?|[? ?]]; [set_solver|split; [lia|done]]|].
  intros [? ?]. right. split; [lia|done].
Qed.

(** Reads of an instance depend on its slot array alone. *)
Lemma slot_agree (h1 h2 : heap) this r :
  h1 !! regs this = h2 !! regs this → slot h1 this r = slot h2 this r.
Proof. intros Heq. unfold slot. f_equal. by apply contents_agree. Qed.

Lemma usedRegs_agree (h1 h2 : heap) this :
  h1 !! regs this = h2 !! regs this →
  eval (usedRegs this) h1 = eval (usedRegs this) h2.
Proof.
  intros Heq. apply set_eq. intros x.
  by rewrite !elem_of_usedRegs, !eval_isUsed, (slot_agree h1 h2).
Qed.

(** Every method writes to the slot array of [this] and to nothing else. *)
Lemma do_op_frame this o h c :
  c ≠ regs this → exec (do_op this o) h !! c = h !! c.
Proof.
  intros Hc. destruct o; cbn [do_op].
  - by apply arr_set_frame.
  - by apply exxAF_frame.
  - by apply exx_frame.
  - by apply merge_frame.
Qed.

Lemma for_each_frame {A} (body : A → M unit) xs h c :
  (∀ x h', exec (body x) h' !! c = h' !! c) →
  exec (for_each xs body) h !! c = h !! c.
Proof.
  intros Hbody. revert h.
  induction xs as [|x xs IH]; intros h; [done|].
  simpl. rewrite exec_bind, IH. apply Hbody.
Qed.

Lemma do_ops_frame this ops h c :
  c ≠ regs this → exec (do_ops this ops) h !! c = h !! c.
Proof.
  intros Hc. apply for_each_frame. intros o h'. by apply do_op_frame.
Qed.

Lemma exec_do_ops_cons this o ops h :
  exec (do_ops this (o :: ops)) h = exec (do_ops this ops) (exec (do_op this o) h).
Proof. unfold do_ops. simpl. by rewrite exec_bind. Qed.

(** ** The constructor *)

Lemma names_length : length names = REGS_MAX.
Proof. reflexivity. Qed.

Lemma eval_alloc l h : eval (alloc l) h = fresh (dom h).
Proof. done. Qed.

Lemma exec_alloc l h : exec (alloc l) h = <[fresh (dom h) := l]> h.
Proof. done. Qed.

Lemma fresh_unallocated (h : heap) : h !! fresh (dom h) = None.
Proof. apply not_elem_of_dom, is_fresh. Qed.

Lemma init_loop_spec a h :
  let h' := exec (for_range 0 REGS_MAX (λ r, arr_set a r (Num (Z.of_nat r)))) h in
  (∀ c, c ≠ a → h' !! c = h !! c)
  ∧ (length (contents h a) = REGS_MAX → length (contents h' a) = REGS_MAX)
  ∧ ∀ j, js_get (contents h' a) j
         = if decide (j < REGS_MAX)%nat then Num (Z.of_nat j)
           else js_get (contents h a) j.
Proof.
  cbn zeta.
  pose (P := λ (k : nat) (h' : heap),
    (∀ c, c ≠ a → h' !! c = h !! c)
    ∧ (length (contents h a) = REGS_MAX → length (contents h' a) = REGS_MAX)
    ∧ ∀ j, js_get (contents h' a) j
           = if decide (j < k)%nat then Num (Z.of_nat j)
             else js_get (contents h a) j).
  loop_inv P HP.
  - split; [done|]. split; [done|]. intros j. by rewrite decide_False by lia.
  - intros k h' Hk (Hfr & Hlen & IH). split; [|split].
    + intros c Hc. rewrite arr_set_frame by done. by apply Hfr.
    + intros Hl. rewrite exec_arr_set, contents_insert_eq.
      rewrite js_set_length; [by apply Hlen|]. rewrite Hlen by done. lia.
    + intros j. rewrite exec_arr_set, contents_insert_eq, js_get_set, IH.
      repeat case_decide; subst; done || lia.
  - apply HP.
Qed.

Lemma length_contents_is_Some (h : heap) a :
  length (contents h a) ≠ 0%nat → is_Some (h !! a).
Proof.
  unfold contents. rewrite lookup_total_alt.
  destruct (h !! a); [by eexists|done].
Qed.

(** Four allocations in a row give four distinct references that the
    store did not hold. *)
Lemma alloc4_spec (h : heap) l1 l2 l3 l4 :
  let a1 := fresh (dom h) in
  let h1 := <[a1 := l1]> h in
  let a2 := fresh (dom h1) in
  let h2 := <[a2 := l2]> h1 in
  let a3 := fresh (dom h2) in
  let h3 := <[a3 := l3]> h2 in
  let a4 := fresh (dom h3) in
  let h4 := <[a4 := l4]> h3 in
  NoDup [a1; a2; a3; a4]
  ∧ Forall (λ c, h !! c = None) [a1; a2; a3; a4]
  ∧ h4 !! a1 = Some l1 ∧ h4 !! a2 = Some l2
  ∧ h4 !! a3 = Some l3 ∧ h4 !! a4 = Some l4
  ∧ ∀ c, c ∉ [a1; a2; a3; a4] → h4 !! c = h !! c.
Proof.
  intros a1 h1 a2 h2 a3 h3 a4 h4.
  pose proof (fresh_unallocated h) as Hn1. fold a1 in Hn1.
  pose proof (fresh_unallocated h1) as Hn2. fold a2 in Hn2.
  pose proof (fresh_unallocated h2) as Hn3. fold a3 in Hn3.
  pose proof (fresh_unallocated h3) as Hn4. fold a4 in Hn4.
  subst h4 h3 h2 h1. clearbody a1 a2 a3 a4.
  apply lookup_insert_None in Hn2 as [Hn2 Hne12].
  apply lookup_insert_None in Hn3 as [Hn3 Hne23].
  apply lookup_insert_None in Hn3 as [Hn3 Hne13].
  apply lookup_insert_None in Hn4 as [Hn4 Hne34].
  apply lookup_insert_None in Hn4 as [Hn4 Hne24].
  apply lookup_insert_None in Hn4 as [Hn4 Hne14].
  split_and!.
  - repeat (apply NoDup_cons_2;
            [rewrite ?elem_of_cons, elem_of_nil; intuition congruence|]).
    apply NoDup_nil_2.
  - repeat (apply Forall_cons_2; [assumption|]). apply Forall_nil_2.
  - rewrite !lookup_insert_ne by congruence. apply lookup_insert_eq.
  - rewrite !lookup_insert_ne by congruence. apply lookup_insert_eq.
  - rewrite !lookup_insert_ne by congruence. apply lookup_insert_eq.
  - apply lookup_insert_eq.
  - intros c Hc. rewrite !not_elem_of_cons in Hc.
    destruct Hc as (?&?&?&?&_). rewrite !lookup_insert_ne by congruence.
    reflexivity.
Qed.

Lemma contents_Some (h : heap) a l : h !! a = Some l → contents h a = l.
Proof. intros Hl. unfold contents. by apply lookup_total_correct. Qed.

Lemma new_Regs_spec h :
  let this := eval new_Regs h in
  let h1 := exec new_Regs h in
  wf_Regs h1 this
  ∧ (∀ c, c ∈ fields this → h !! c = None)
  ∧ (∀ c, c ∉ fields this → h1 !! c = h !! c)
  ∧ (∀ r, slot h1 this r
          = if decide (r < REGS_MAX)%nat then Num (Z.of_nat r) else Undefined)
  ∧ contents h1 (usedAddresses this) = []
  ∧ contents h1 (inputRegs this) = []
  ∧ contents h1 (stack this) = [].
Proof.
  cbn zeta. unfold new_Regs. msimpl. rewrite !eval_alloc, !exec_alloc.
  pose proof (alloc4_spec h (replicate REGS_MAX Undefined) [] [] [])
    as (Hnd & Hnone & H1 & H2 & H3 & H4 & Hfr4).
  set (a1 := fresh (dom h)) in *.
  set (h_1 := <[a1 := replicate REGS_MAX Undefined]> h) in *.
  set (a2 := fresh (dom h_1)) in *. set (h_2 := <[a2 := []]> h_1) in *.
  set (a3 := fresh (dom h_2)) in *. set (h_3 := <[a3 := []]> h_2) in *.
  set (a4 := fresh (dom h_3)) in *. set (h_4 := <[a4 := []]> h_3) in *.
  clearbody h_4 a4 a3 a2 a1. clear h_3 h_2 h_1.
  destruct (init_loop_spec a1 h_4) as (Hfr & Hlen & Hget).
  set (h' := exec (for_range 0 REGS_MAX _) h_4) in *. clearbody h'.
  unfold wf_Regs, fields, slot. cbn [regs usedAddresses inputRegs stack].
  pose proof (NoDup_cons_1_1 _ _ Hnd) as Hn1.
  rewrite !not_elem_of_cons in Hn1. destruct Hn1 as (Hne2 & Hne3 & Hne4 & _).
  assert (Hc1 : contents h_4 a1 = replicate REGS_MAX Undefined)
    by (by apply contents_Some).
  assert (Hc2 : contents h' a2 = []).
  { apply contents_Some. rewrite Hfr by congruence. exact H2. }
  assert (Hc3 : contents h' a3 = []).
  { apply contents_Some. rewrite Hfr by congruence. exact H3. }
  assert (Hc4 : contents h' a4 = []).
  { apply contents_Some. rewrite Hfr by congruence. exact H4. }
  assert (Hl1 : length (contents h' a1) = REGS_MAX).
  { apply Hlen. rewrite Hc1. apply length_replicate. }
  split_and!.
  - exact Hnd.
  - apply Forall_cons_2.
    { apply length_contents_is_Some. rewrite Hl1. discriminate. }
    repeat (apply Forall_cons_2;
            [rewrite Hfr by congruence; eexists; eassumption|]).
    apply Forall_nil_2.
  - exact Hl1.
  - rewrite Hc3. apply NoDup_nil_2.
  - intros c Hc. by apply (proj1 (list.Forall_forall _ _) Hnone).
  - intros c Hc. destruct (decide (c = a1)) as [->|Hca1].
    { exfalso. apply Hc. apply list_elem_of_here. }
    rewrite Hfr by exact Hca1. by apply Hfr4.
  - intros r. rewrite Hget. case_decide; [reflexivity|].
    rewrite Hc1. unfold js_get.
    destruct (replicate REGS_MAX Undefined !! r) eqn:Hr; [|reflexivity].
    by apply lookup_replicate in Hr as [-> _].
  - exact Hc2.
  - exact Hc3.
  - exact Hc4.
Qed.

(** ** Well-formed instances *)

Lemma wf_Regs_allocated h this : wf_Regs h this → is_Some (h !! regs this).
Proof.
  intros (_ & _ & Hlen & _). apply length_contents_is_Some.
  by rewrite Hlen.
Qed.

Lemma wf_Regs_regs_ne h this c :
  wf_Regs h this → c ∈ [usedAddresses this; inputRegs this; stack this] →
  c ≠ regs this.
Proof.
  intros (Hnd & _) Hc ->. unfold fields in Hnd.
  by apply NoDup_cons_1_1 in Hnd.
Qed.

Lemma merge_length this otherRegs h :
  length (contents h (regs this)) = REGS_MAX →
  length (contents (exec (merge this otherRegs) h) (regs this)) = REGS_MAX.
Proof.
  intros Hlen. unfold merge.
  pose (P := λ (k : nat) (h' : heap), length (contents h' (regs this)) = REGS_MAX).
  loop_inv P HP; [done| |done].
  intros k h' Hk IH. unfold P in *. msimpl.
  case (js_neq _ _); msimpl; [|done].
  rewrite exec_arr_set, contents_insert_eq, js_set_length; [done|].
  rewrite IH. lia.
Qed.

(** ** Monotonicity of the used status (C1) *)

Lemma swapAF_fixed r : r ∉ exchanged_by ExxAF → swapAF r = r.
Proof.
  simpl. rewrite !not_elem_of_cons. intros (?&?&?&?&_).
  unfold swapAF. by rewrite !decide_False.
Qed.

Lemma swapX_fixed r : r ∉ exchanged_by Exx → swapX r = r.
Proof.
  simpl. rewrite !not_elem_of_cons.
  unfold swapX, REGISTER.B, REGISTER.C, REGISTER.D, REGISTER.E, REGISTER.H,
    REGISTER.L, REGISTER.B2, REGISTER.C2, REGISTER.D2, REGISTER.E2,
    REGISTER.H2, REGISTER.L2.
  intros (?&?&?&?&?&?&?&?&?&?&?&?&_).
  rewrite !decide_False; [done|lia..].
Qed.

Lemma isUsed_do_op this o r h :
  r ∉ exchanged_by o →
  eval (isUsed this r) h = true →
  eval (isUsed this r) (exec (do_op this o) h) = true.
Proof.
  rewrite !eval_isUsed. intros Hr Hused.
  destruct o as [r'| | |other]; cbn [do_op].
  - rewrite slot_use. case_decide; [apply js_neq_marker|done].
  - by rewrite slot_exxAF, swapAF_fixed.
  - by rewrite slot_exx, swapX_fixed.
  - rewrite slot_merge. case_decide; [|done].
    unfold merged_slot. by destruct (js_neq (slot h other r) _) eqn:Ho.
Qed.

(** C1, as amended: along any sequence of [use], [exxAF], [exx] and [merge]
    on one instance, a register that is used stays used across every
    operation that does not exchange its slot; [use] and [merge] exchange
    nothing, [exxAF] exchanges A, F, A', F' and [exx] exchanges B..L with
    B'..L'. *)
Theorem used_stays_used this ops r h :
  Forall (λ o, r ∉ exchanged_by o) ops →
  eval (isUsed this r) h = true →
  eval (isUsed this r) (exec (do_ops this ops) h) = true.
Proof.
  intros Hops. revert h.
  induction Hops as [|o ops Ho _ IH]; intros h Hused; [done|].
  rewrite exec_do_ops_cons. apply IH. by apply isUsed_do_op.
Qed.

Lemma used_stays_used_witness :
  let this := eval new_Regs ∅ in
  let other := eval new_Regs (exec new_Regs ∅) in
  let h := exec (use this REGISTER.B) (exec new_Regs (exec new_Regs ∅)) in
  let ops := [ExxAF; Merge other; Use REGISTER.C; ExxAF] in
  Forall (λ o, REGISTER.B ∉ exchanged_by o) ops
  ∧ eval (isUsed this REGISTER.B) h = true
  ∧ eval (isUsed this REGISTER.B) (exec (do_ops this ops) h) = true.
Proof.
  cbn zeta.
  assert (Forall (λ o, REGISTER.B ∉ exchanged_by o)
            [ExxAF; Merge (eval new_Regs (exec new_Regs ∅));
             Use REGISTER.C; ExxAF]) as Hops.
  { apply (bool_decide_unpack _). vm_compute. reflexivity. }
  assert (eval (isUsed (eval new_Regs ∅) REGISTER.B)
            (exec (use (eval new_Regs ∅) REGISTER.B)
               (exec new_Regs (exec new_Regs ∅))) = true) as Hused.
  { vm_compute. reflexivity. }
  split_and!; [exact Hops|exact Hused|].
  exact (used_stays_used _ _ _ _ Hops Hused).
Defined.

(** C1, as stated, fails: on a fresh instance one [exxAF] makes A used,
    and a second [exxAF] makes it fresh again. *)
Lemma exxAF_twice_reverts :
  let this := eval new_Regs ∅ in
  let h1 := exec (do_ops this [ExxAF]) (exec new_Regs ∅) in
  eval (isUsed this REGISTER.A) h1 = true
  ∧ eval (isUsed this REGISTER.A) (exec (do_ops this [ExxAF]) h1) = false.
Proof. vm_compute. split; reflexivity. Qed.

(** ** The methods keep instances well formed *)

Lemma arr_set_length a i v h :
  (i < REGS_MAX)%nat →
  length (contents h a) = REGS_MAX →
  length (contents (exec (arr_set a i v) h) a) = REGS_MAX.
Proof.
  intros Hi Hlen. rewrite exec_arr_set, contents_insert_eq, js_set_length;
    [exact Hlen|by rewrite Hlen].
Qed.

Lemma exxAF_length this h :
  length (contents h (regs this)) = REGS_MAX →
  length (contents (exec (exxAF this) h) (regs this)) = REGS_MAX.
Proof.
  intros Hlen. unfold exxAF. msimpl.
  repeat (apply arr_set_length;
          [unfold REGISTER.REGS_MAX, REGISTER.A, REGISTER.F, REGISTER.A2,
             REGISTER.F2; lia|]).
  exact Hlen.
Qed.

Lemma exx_length this h :
  length (contents h (regs this)) = REGS_MAX →
  length (contents (exec (exx this) h) (regs this)) = REGS_MAX.
Proof.
  intros Hlen. unfold exx.
  pose (P := λ (k : nat) (h' : heap), length (contents h' (regs this)) = REGS_MAX).
  loop_inv P HP; [exact Hlen| |exact HP].
  intros k h' Hk IH. unfold P in *. msimpl.
  unfold REGISTER.B, REGISTER.L, REGISTER.B2 in *.
  repeat (apply arr_set_length; [unfold REGISTER.REGS_MAX; lia|]).
  exact IH.
Qed.

Lemma do_op_length this o h :
  op_ok o →
  length (contents h (regs this)) = REGS_MAX →
  length (contents (exec (do_op this o) h) (regs this)) = REGS_MAX.
Proof.
  intros Hok Hlen. destruct o as [r| | |other]; cbn [do_op].
  - by apply arr_set_length.
  - by apply exxAF_length.
  - by apply exx_length.
  - by apply merge_length.
Qed.

(** Whatever method runs on a well-formed instance, the instance is well
    formed afterwards. *)
Lemma do_op_wf this o h :
  op_ok o → wf_Regs h this → wf_Regs (exec (do_op this o) h) this.
Proof.
  intros Hok Hwf. pose proof Hwf as (Hnd & Hal & Hlen & Hset).
  pose proof (do_op_length this o h Hok Hlen) as Hlen'.
  unfold wf_Regs. split_and!.
  - exact Hnd.
  - apply list.Forall_forall. intros c Hc.
    destruct (decide (c = regs this)) as [->|Hne].
    + apply length_contents_is_Some. by rewrite Hlen'.
    + rewrite do_op_frame by exact Hne.
      by apply (proj1 (list.Forall_forall _ _) Hal).
  - exact Hlen'.
  - rewrite (contents_agree h); [exact Hset|].
    apply do_op_frame, (wf_Regs_regs_ne h); [exact Hwf|].
    rewrite !elem_of_cons; tauto.
Qed.

Lemma do_ops_wf this ops : ∀ h,
  Forall op_ok ops → wf_Regs h this → wf_Regs (exec (do_ops this ops) h) this.
Proof.
  induction ops as [|o ops IH]; intros h Hok Hwf; [exact Hwf|].
  rewrite exec_do_ops_cons. apply IH; [by eapply Forall_inv_tail|].
  apply do_op_wf; [by eapply Forall_inv|exact Hwf].
Qed.

(** The two exchanges are involutions on the slots. *)
Lemma slot_exxAF_twice this h r :
  slot (exec (exxAF this) (exec (exxAF this) h)) this r = slot h this r.
Proof.
  rewrite !slot_exxAF. f_equal.
  unfold swapAF, REGISTER.A, REGISTER.F, REGISTER.A2, REGISTER.F2.
  repeat case_decide; lia.
Qed.

Lemma slot_exx_twice this h r :
  slot (exec (exx this) (exec (exx this) h)) this r = slot h this r.
Proof.
  rewrite !slot_exx. f_equal.
  unfold swapX, REGISTER.B, REGISTER.L, REGISTER.B2, REGISTER.L2.
  repeat case_decide; lia.
Qed.

(** ** [merge] as a join (C3) *)

Lemma usedRegs_merge this otherRegs h :
  eval (usedRegs this) (exec (merge this otherRegs) h)
  = eval (usedRegs this) h ∪ eval (usedRegs otherRegs) h.
Proof.
  apply set_eq. intros x.
  rewrite elem_of_union, !elem_of_usedRegs, !eval_isUsed, slot_merge.
  unfold merged_slot.
  destruct (decide (x < REGS_MAX)%nat) as [Hx|Hx]; [|tauto].
  destruct (js_neq (slot h otherRegs x) _) eqn:Ho; rewrite ?Ho;
    intuition congruence.
Qed.

Lemma merge_self this h : wf_Regs h this → exec (merge this this) h = h.
Proof.
  intros Hwf. pose proof Hwf as (_ & _ & Hlen & _).
  apply map_eq. intros c.
  destruct (decide (c = regs this)) as [->|Hc]; [|by apply merge_frame].
  pose proof (merge_length this this h Hlen) as Hlen'.
  rewrite !contents_lookup;
    [|by apply wf_Regs_allocated
     |by apply length_contents_is_Some; rewrite Hlen'].
  f_equal. apply js_get_ext; [by rewrite Hlen, Hlen'|].
  intros i. fold (slot (exec (merge this this) h) this i) (slot h this i).
  rewrite slot_merge. unfold merged_slot.
  case_decide; [|done]. by destruct (js_neq _ _).
Qed.

(** C3: [merge] is commutative on the result of [usedRegs], which is the
    union of the two used sets on either side, and merging a state with
    itself leaves the store as it is. *)
Theorem merge_comm_idem (a b : Regs) (h : heap) :
  wf_Regs h a →
  eval (usedRegs a) (exec (merge a b) h)
    = eval (usedRegs b) (exec (merge b a) h)
  ∧ eval (usedRegs a) (exec (merge a b) h)
    = eval (usedRegs a) h ∪ eval (usedRegs b) h
  ∧ eval (usedRegs b) (exec (merge b a) h)
    = eval (usedRegs a) h ∪ eval (usedRegs b) h
  ∧ exec (merge a a) h = h.
Proof.
  intros Hwf. rewrite !usedRegs_merge.
  split_and!; [apply (comm_L (∪))|done|apply (comm_L (∪))|by apply merge_self].
Qed.

Lemma merge_comm_idem_witness :
  let a := eval new_Regs ∅ in
  let b := eval new_Regs (exec new_Regs ∅) in
  let h := exec (use b REGISTER.C)
             (exec (exxAF a) (exec new_Regs (exec new_Regs ∅))) in
  eval (usedRegs a) (exec (merge a b) h)
    = eval (usedRegs b) (exec (merge b a) h)
  ∧ eval (usedRegs a) (exec (merge a b) h)
    = eval (usedRegs a) h ∪ eval (usedRegs b) h
  ∧ eval (usedRegs b) (exec (merge b a) h)
    = eval (usedRegs a) h ∪ eval (usedRegs b) h
  ∧ exec (merge a a) h = h.
Proof.
  cbn zeta. apply merge_comm_idem.
  apply (bool_decide_unpack _). vm_compute. reflexivity.
Defined.

(** ** The frame of [merge] (C8) *)

(** C8: [a.merge(b)] leaves the [inputRegs], [usedAddresses] and [stack]
    of [a] exactly as they were; the slot array of [a] is the only
    container of the store it writes. *)
Theorem merge_preserves_bookkeeping (a b : Regs) (h : heap) :
  wf_Regs h a →
  contents (exec (merge a b) h) (inputRegs a) = contents h (inputRegs a)
  ∧ contents (exec (merge a b) h) (usedAddresses a) = contents h (usedAddresses a)
  ∧ contents (exec (merge a b) h) (stack a) = contents h (stack a)
  ∧ ∀ c, c ≠ regs a → exec (merge a b) h !! c = h !! c.
Proof.
  intros Hwf.
  split_and!;
    try (apply contents_agree, merge_frame, (wf_Regs_regs_ne h); [done|];
         rewrite !elem_of_cons; tauto).
  intros c Hc. by apply merge_frame.
Qed.

Lemma merge_preserves_bookkeeping_witness :
  let a := eval new_Regs ∅ in
  let b := eval new_Regs (exec new_Regs ∅) in
  let h := exec (use b REGISTER.C)
             (exec (arr_push (stack a) (Num 4660))
                (exec new_Regs (exec new_Regs ∅))) in
  contents (exec (merge a b) h) (inputRegs a) = contents h (inputRegs a)
  ∧ contents (exec (merge a b) h) (usedAddresses a) = contents h (usedAddresses a)
  ∧ contents (exec (merge a b) h) (stack a) = contents h (stack a)
  ∧ ∀ c, c ≠ regs a → exec (merge a b) h !! c = h !! c.
Proof.
  cbn zeta. apply merge_preserves_bookkeeping.
  apply (bool_decide_unpack _). vm_compute. reflexivity.
Defined.

(** ** A bank exchange on a fresh instance (C10) *)

Lemma js_neq_Num (y x : nat) :
  js_neq (Num (Z.of_nat y)) (Z.of_nat x) = true ↔ y ≠ x.
Proof.
  unfold js_neq, Num. rewrite negb_true_iff, Z.eqb_neq. lia.
Qed.

Lemma swapAF_moves x :
  swapAF x ≠ x
  ↔ x = REGISTER.A ∨ x = REGISTER.F ∨ x = REGISTER.A2 ∨ x = REGISTER.F2.
Proof.
  unfold swapAF, REGISTER.A, REGISTER.F, REGISTER.A2, REGISTER.F2.
  repeat case_decide; lia.
Qed.

Lemma swapAF_lt x : (x < REGS_MAX)%nat → (swapAF x < REGS_MAX)%nat.
Proof.
  unfold swapAF, REGISTER.A, REGISTER.F, REGISTER.A2, REGISTER.F2,
    REGISTER.REGS_MAX.
  repeat case_decide; lia.
Qed.

Lemma slot_new_exxAF h r :
  (r < REGS_MAX)%nat →
  slot (exec (exxAF (eval new_Regs h)) (exec new_Regs h)) (eval new_Regs h) r
  = Num (Z.of_nat (swapAF r)).
Proof.
  intros Hr. destruct (new_Regs_spec h) as (_ & _ & _ & Hslot & _).
  rewrite slot_exxAF, Hslot. rewrite decide_True; [reflexivity|].
  by apply swapAF_lt.
Qed.

(** C10: on a freshly constructed instance no register is used; after one
    [exxAF] the registers A, F, A' and F' are used, each slot holding the
    number of its partner, they are the members of [usedRegs], and
    [inputRegs] is still empty. *)
Theorem fresh_exxAF_marks_used (h : heap) :
  let this := eval new_Regs h in
  let h1 := exec new_Regs h in
  let h2 := exec (exxAF this) h1 in
  eval (usedRegs this) h1 = ∅
  ∧ eval (isUsed this REGISTER.A) h2 = true
  ∧ eval (isUsed this REGISTER.F) h2 = true
  ∧ eval (isUsed this REGISTER.A2) h2 = true
  ∧ eval (isUsed this REGISTER.F2) h2 = true
  ∧ slot h2 this REGISTER.A = Num (Z.of_nat REGISTER.A2)
  ∧ slot h2 this REGISTER.F = Num (Z.of_nat REGISTER.F2)
  ∧ slot h2 this REGISTER.A2 = Num (Z.of_nat REGISTER.A)
  ∧ slot h2 this REGISTER.F2 = Num (Z.of_nat REGISTER.F)
  ∧ eval (usedRegs this) h2
    = {[REGISTER.A; REGISTER.F; REGISTER.A2; REGISTER.F2]}
  ∧ contents h2 (inputRegs this) = [].
Proof.
  cbn zeta.
  destruct (new_Regs_spec h) as (Hwf & _ & _ & Hslot & _ & Hinp & _).
  assert (∀ r, (r < REGS_MAX)%nat → swapAF r ≠ r →
    eval (isUsed (eval new_Regs h) r)
      (exec (exxAF (eval new_Regs h)) (exec new_Regs h)) = true) as Hused.
  { intros r Hr Hmv. rewrite eval_isUsed, slot_new_exxAF by exact Hr.
    by apply js_neq_Num. }
  split_and!.
  - apply set_eq. intros x. rewrite elem_of_usedRegs, eval_isUsed, Hslot.
    split; [|intros Hx; apply not_elem_of_empty in Hx; destruct Hx].
    intros [Hx Hu]. rewrite decide_True in Hu by exact Hx.
    rewrite js_neq_self in Hu. discriminate Hu.
  - apply Hused; [unfold REGISTER.REGS_MAX, REGISTER.A; lia|discriminate].
  - apply Hused; [unfold REGISTER.REGS_MAX, REGISTER.F; lia|discriminate].
  - apply Hused; [unfold REGISTER.REGS_MAX, REGISTER.A2; lia|discriminate].
  - apply Hused; [unfold REGISTER.REGS_MAX, REGISTER.F2; lia|discriminate].
  - apply slot_new_exxAF. unfold REGISTER.REGS_MAX, REGISTER.A; lia.
  - apply slot_new_exxAF. unfold REGISTER.REGS_MAX, REGISTER.F; lia.
  - apply slot_new_exxAF. unfold REGISTER.REGS_MAX, REGISTER.A2; lia.
  - apply slot_new_exxAF. unfold REGISTER.REGS_MAX, REGISTER.F2; lia.
  - apply set_eq. intros x. rewrite elem_of_usedRegs, eval_isUsed.
    rewrite !elem_of_union, !elem_of_singleton.
    split.
    + intros [Hx Hu]. rewrite slot_new_exxAF in Hu by exact Hx.
      apply js_neq_Num, swapAF_moves in Hu. tauto.
    + intros Hx.
      assert ((x < REGS_MAX)%nat) as Hlt.
      { unfold REGISTER.REGS_MAX, REGISTER.A, REGISTER.F, REGISTER.A2,
          REGISTER.F2 in *. lia. }
      split; [exact Hlt|]. rewrite slot_new_exxAF by exact Hlt.
      apply js_neq_Num, swapAF_moves. tauto.
  - rewrite <- Hinp.
    apply contents_agree, exxAF_frame, (wf_Regs_regs_ne _ _ _ Hwf).
    rewrite !elem_of_cons; tauto.
Qed.

(** ** [clone] (C9) *)

Lemma js_get_ge (l : list jsval) j : (length l ≤ j)%nat → js_get l j = Undefined.
Proof. intros Hj. unfold js_get. by rewrite lookup_ge_None_2. Qed.

Lemma exec_for_each_push a xs : ∀ h,
  is_Some (h !! a) →
  exec (for_each xs (λ x, arr_push a x)) h = <[a := contents h a ++ xs]> h.
Proof.
  induction xs as [|x xs IH]; intros h Ha.
  - rewrite app_nil_r. cbn [for_each]. rewrite exec_ret.
    symmetry. apply insert_id. by apply contents_lookup.
  - cbn [for_each]. rewrite exec_bind, exec_arr_push, IH.
    + rewrite contents_insert_eq, insert_insert_eq, <- app_assoc. reflexivity.
    + rewrite lookup_insert_eq. by eexists.
Qed.

Lemma exec_set_add s v h :
  exec (set_add s v) h
  = <[s := if decide (v ∈ contents h s) then contents h s
           else contents h s ++ [v]]> h.
Proof. reflexivity. Qed.

Lemma exec_for_each_set_add s xs : ∀ h,
  is_Some (h !! s) →
  NoDup (contents h s ++ xs) →
  exec (for_each xs (λ x, set_add s x)) h = <[s := contents h s ++ xs]> h.
Proof.
  induction xs as [|x xs IH]; intros h Hs Hnd.
  - rewrite app_nil_r. cbn [for_each]. rewrite exec_ret.
    symmetry. apply insert_id. by apply contents_lookup.
  - cbn [for_each]. rewrite exec_bind, exec_set_add.
    assert (x ∉ contents h s) as Hx.
    { apply list.NoDup_app in Hnd as (_ & Hdisj & _). intros Hin.
      apply (Hdisj x Hin). apply list_elem_of_here. }
    rewrite decide_False by exact Hx. rewrite IH.
    + rewrite contents_insert_eq, insert_insert_eq, <- app_assoc. reflexivity.
    + rewrite lookup_insert_eq. by eexists.
    + rewrite contents_insert_eq, <- app_assoc. exact Hnd.
Qed.

(** The loop of [clone] that copies the slots. *)
Lemma copy_loop_spec src dst h :
  src ≠ dst →
  length (contents h dst) = REGS_MAX →
  length (contents h src) = REGS_MAX →
  let h' := exec (for_range 0 REGS_MAX (λ r,
                    v ← arr_get src r; arr_set dst r v)) h in
  (∀ c, c ≠ dst → h' !! c = h !! c)
  ∧ h' !! dst = Some (contents h src).
Proof.
  intros Hne Hld Hls. cbn zeta.
  pose (P := λ (k : nat) (h' : heap),
    (∀ c, c ≠ dst → h' !! c = h !! c)
    ∧ length (contents h' dst) = REGS_MAX
    ∧ ∀ j, js_get (contents h' dst) j
           = if decide (j < k)%nat then js_get (contents h src) j
             else js_get (contents h dst) j).
  loop_inv P HP.
  - split_and!; [done|exact Hld|]. intros j. by rewrite decide_False by lia.
  - intros k h' Hk (Hfr & Hlen & IH). msimpl.
    rewrite (contents_agree h h' src) by (by apply Hfr).
    split_and!.
    + intros c Hc. rewrite arr_set_frame by exact Hc. by apply Hfr.
    + rewrite exec_arr_set, contents_insert_eq, js_set_length; [exact Hlen|].
      rewrite Hlen. lia.
    + intros j. rewrite exec_arr_set, contents_insert_eq, js_get_set, IH.
      repeat case_decide; subst; done || lia.
  - destruct HP as (Hfr & Hlen & Hget). split; [exact Hfr|].
    rewrite contents_lookup
      by (apply length_contents_is_Some; rewrite Hlen; discriminate).
    f_equal. apply js_get_ext; [by rewrite Hlen, Hls|].
    intros j. rewrite Hget. case_decide as Hj; [reflexivity|].
    rewrite !js_get_ge; [reflexivity|lia..].
Qed.

Lemma wf_Regs_field_alloc h this c :
  wf_Regs h this → c ∈ fields this → is_Some (h !! c).
Proof. intros (_ & Hal & _) Hc. by apply (proj1 (list.Forall_forall _ _) Hal). Qed.

Lemma clone_spec this h :
  wf_Regs h this →
  let c := eval (clone this) h in
  let h' := exec (clone this) h in
  NoDup (fields c)
  ∧ (∀ x, x ∈ fields c → h !! x = None)
  ∧ (∀ x, x ∉ fields c → h' !! x = h !! x)
  ∧ h' !! regs c = Some (contents h (regs this))
  ∧ h' !! usedAddresses c = Some (contents h (usedAddresses this))
  ∧ h' !! inputRegs c = Some (contents h (inputRegs this))
  ∧ h' !! stack c = Some (contents h (stack this)).
Proof.
  intros Hwf. cbn zeta. unfold clone. msimpl.
  destruct (new_Regs_spec h) as (Hwfn & Hfresh & Hfr1 & _ & Hua & Hin & Hst).
  set (n := eval new_Regs h) in *. set (h1 := exec new_Regs h) in *.
  clearbody n h1.
  assert (Hapart : ∀ x, x ∈ fields this → x ∉ fields n).
  { intros x Hx Hxn. apply Hfresh in Hxn.
    destruct (wf_Regs_field_alloc _ _ _ Hwf Hx) as [l Hl]. congruence. }
  pose proof Hwfn as (Hndn & Haln & Hlenn & _).
  pose proof Hwf as (_ & _ & Hlen & Hset).
  assert (Hkeep1 : ∀ x, x ∈ fields this → h1 !! x = h !! x).
  { intros x Hx. by apply Hfr1, Hapart. }
  unfold fields in Hndn.
  pose proof (NoDup_cons_1_1 _ _ Hndn) as Hn1.
  pose proof (NoDup_cons_1_2 _ _ Hndn) as Hnd2.
  pose proof (NoDup_cons_1_1 _ _ Hnd2) as Hn2.
  pose proof (NoDup_cons_1_2 _ _ Hnd2) as Hnd3.
  pose proof (NoDup_cons_1_1 _ _ Hnd3) as Hn3.
  rewrite !not_elem_of_cons in Hn1. rewrite !not_elem_of_cons in Hn2.
  rewrite !not_elem_of_cons in Hn3.
  destruct Hn1 as (Hru & Hri & Hrs & _).
  destruct Hn2 as (Hui & Hus & _). destruct Hn3 as (His & _).
  assert (Hin_r : regs this ∈ fields this) by apply list_elem_of_here.
  assert (Hin_u : usedAddresses this ∈ fields this)
    by (unfold fields; rewrite !elem_of_cons; tauto).
  assert (Hin_i : inputRegs this ∈ fields this)
    by (unfold fields; rewrite !elem_of_cons; tauto).
  assert (Hin_s : stack this ∈ fields this)
    by (unfold fields; rewrite !elem_of_cons; tauto).
  assert (Hne : ∀ x y, x ∈ fields this → y ∈ fields n → x ≠ y).
  { intros x y Hx Hy ->. by apply (Hapart y). }
  assert (Hn_r : regs n ∈ fields n) by apply list_elem_of_here.
  assert (Hn_u : usedAddresses n ∈ fields n)
    by (unfold fields; rewrite !elem_of_cons; tauto).
  assert (Hn_i : inputRegs n ∈ fields n)
    by (unfold fields; rewrite !elem_of_cons; tauto).
  assert (Hn_s : stack n ∈ fields n)
    by (unfold fields; rewrite !elem_of_cons; tauto).
  (* the slots *)
  destruct (copy_loop_spec (regs this) (regs n) h1) as [Hfr2 Hregs].
  { by apply Hne. }
  { exact Hlenn. }
  { rewrite (contents_agree h h1) by (by apply Hkeep1). exact Hlen. }
  rewrite (contents_agree h h1 (regs this)) in Hregs by (by apply Hkeep1).
  set (h2 := exec (for_range 0 REGS_MAX _) h1) in *. clearbody h2.
  assert (Hkeep2 : ∀ x, x ∈ fields this → h2 !! x = h !! x).
  { intros x Hx. rewrite Hfr2 by (by apply Hne). by apply Hkeep1. }
  assert (Hal2 : ∀ x, x ∈ fields n → is_Some (h2 !! x)).
  { intros x Hx. destruct (decide (x = regs n)) as [->|Hxr].
    - rewrite Hregs. by eexists.
    - rewrite Hfr2 by exact Hxr.
      by apply (proj1 (list.Forall_forall _ _) Haln). }
  (* usedAddresses *)
  rewrite (contents_agree h h2 (usedAddresses this)) by (by apply Hkeep2).
  rewrite (exec_for_each_push (usedAddresses n) _ h2) by (by apply Hal2).
  rewrite (contents_agree h1 h2 (usedAddresses n)), Hua
    by (apply Hfr2; congruence).
  rewrite app_nil_l.
  set (h3 := <[usedAddresses n := contents h (usedAddresses this)]> h2).
  (* inputRegs *)
  assert (Hc3i : contents h3 (inputRegs this) = contents h (inputRegs this)).
  { apply contents_agree. unfold h3.
    rewrite lookup_insert_ne by (apply not_eq_sym; by apply Hne).
    by apply Hkeep2. }
  assert (Hc3n : contents h3 (inputRegs n) = []).
  { rewrite <- Hin. apply contents_agree. unfold h3.
    rewrite lookup_insert_ne by exact Hui. apply Hfr2. congruence. }
  rewrite Hc3i. rewrite (exec_for_each_set_add (inputRegs n) _ h3).
  2:{ unfold h3. rewrite lookup_insert_ne by exact Hui. by apply Hal2. }
  2:{ rewrite Hc3n, app_nil_l. exact Hset. }
  rewrite Hc3n, app_nil_l.
  set (h4 := <[inputRegs n := contents h (inputRegs this)]> h3).
  (* stack *)
  assert (Hc4s : contents h4 (stack this) = contents h (stack this)).
  { apply contents_agree. unfold h4, h3.
    rewrite !lookup_insert_ne by (apply not_eq_sym; by apply Hne).
    by apply Hkeep2. }
  assert (Hc4n : contents h4 (stack n) = []).
  { rewrite <- Hst. apply contents_agree. unfold h4, h3.
    rewrite !lookup_insert_ne by congruence. apply Hfr2. congruence. }
  rewrite Hc4s. rewrite (exec_for_each_push (stack n) _ h4).
  2:{ unfold h4, h3. rewrite !lookup_insert_ne by congruence. by apply Hal2. }
  rewrite Hc4n, app_nil_l. unfold h4, h3.
  split_and!.
  - exact Hndn.
  - exact Hfresh.
  - intros x Hx. unfold fields in Hx. rewrite !not_elem_of_cons in Hx.
    destruct Hx as (?&?&?&?&_).
    rewrite !lookup_insert_ne by congruence.
    rewrite Hfr2 by congruence. apply Hfr1.
    unfold fields. rewrite !not_elem_of_cons, elem_of_nil. tauto.
  - rewrite !lookup_insert_ne by congruence. exact Hregs.
  - rewrite !lookup_insert_ne by congruence. apply lookup_insert_eq.
  - rewrite lookup_insert_ne by congruence. apply lookup_insert_eq.
  - apply lookup_insert_eq.
Qed.

Lemma mutate_frame this mus h c :
  c ≠ regs this → exec (mutate this mus) h !! c = h !! c.
Proof.
  intros Hc. apply for_each_frame. intros mu h'.
  destruct mu as [o|r v]; cbn [do_mutation];
    [by apply do_op_frame|by apply arr_set_frame].
Qed.

(** C9: [clone] returns an instance made of four new containers whose
    contents equal those of the original, leaves the original as it was,
    and shares nothing with it: no change of the slots of the clone alters
    what [usedRegs] returns for the original, nor the other way round. *)
Theorem clone_equal_independent (this : Regs) (h : heap) :
  wf_Regs h this →
  let c := eval (clone this) h in
  let h' := exec (clone this) h in
  (∀ x, x ∈ fields c → h !! x = None)
  ∧ wf_Regs h' c
  ∧ contents h' (regs c) = contents h (regs this)
  ∧ contents h' (inputRegs c) = contents h (inputRegs this)
  ∧ contents h' (usedAddresses c) = contents h (usedAddresses this)
  ∧ contents h' (stack c) = contents h (stack this)
  ∧ (∀ x, x ∈ fields this → h' !! x = h !! x)
  ∧ eval (usedRegs c) h' = eval (usedRegs this) h
  ∧ (∀ mus, eval (usedRegs this) (exec (mutate c mus) h')
            = eval (usedRegs this) h)
  ∧ (∀ mus, eval (usedRegs c) (exec (mutate this mus) h')
            = eval (usedRegs c) h').
Proof.
  intros Hwf. cbn zeta.
  destruct (clone_spec this h Hwf)
    as (Hnd & Hfresh & Hfr & Hr & Hu & Hi & Hs).
  set (c := eval (clone this) h) in *. set (h' := exec (clone this) h) in *.
  clearbody c h'.
  pose proof Hwf as (_ & _ & Hlen & Hset).
  assert (Hapart : ∀ x, x ∈ fields this → x ∉ fields c).
  { intros x Hx Hxc. apply Hfresh in Hxc.
    destruct (wf_Regs_field_alloc _ _ _ Hwf Hx) as [l Hl]. congruence. }
  assert (Hne : regs this ≠ regs c).
  { intros Heq. apply (Hapart (regs this)); [apply list_elem_of_here|].
    rewrite Heq. apply list_elem_of_here. }
  assert (Hcr : contents h' (regs c) = contents h (regs this))
    by (by apply contents_Some).
  assert (Hci : contents h' (inputRegs c) = contents h (inputRegs this))
    by (by apply contents_Some).
  assert (Hkeep : ∀ x, x ∈ fields this → h' !! x = h !! x).
  { intros x Hx. by apply Hfr, Hapart. }
  split_and!.
  - exact Hfresh.
  - unfold wf_Regs. split_and!.
    + exact Hnd.
    + unfold fields.
      repeat (apply Forall_cons_2; [by eexists|]). apply Forall_nil_2.
    + by rewrite Hcr.
    + by rewrite Hci.
  - exact Hcr.
  - exact Hci.
  - by apply contents_Some.
  - by apply contents_Some.
  - exact Hkeep.
  - apply set_eq. intros x. rewrite !elem_of_usedRegs, !eval_isUsed.
    unfold slot. by rewrite Hcr.
  - intros mus.
    rewrite (usedRegs_agree (exec (mutate c mus) h') h'); [|by apply mutate_frame].
    apply usedRegs_agree, Hkeep, list_elem_of_here.
  - intros mus. apply usedRegs_agree, mutate_frame. congruence.
Qed.

Lemma clone_equal_independent_witness :
  let this := eval new_Regs ∅ in
  let h := exec (arr_push (stack this) (Num 32768))
             (exec (set_add (inputRegs this) (Num 2))
                (exec (use this REGISTER.B) (exec new_Regs ∅))) in
  let c := eval (clone this) h in
  let h' := exec (clone this) h in
  wf_Regs h this
  ∧ (∀ x, x ∈ fields c → h !! x = None)
  ∧ wf_Regs h' c
  ∧ contents h' (regs c) = contents h (regs this)
  ∧ contents h' (inputRegs c) = contents h (inputRegs this)
  ∧ contents h' (usedAddresses c) = contents h (usedAddresses this)
  ∧ contents h' (stack c) = contents h (stack this)
  ∧ (∀ x, x ∈ fields this → h' !! x = h !! x)
  ∧ eval (usedRegs c) h' = eval (usedRegs this) h
  ∧ (∀ mus, eval (usedRegs this) (exec (mutate c mus) h')
            = eval (usedRegs this) h)
  ∧ (∀ mus, eval (usedRegs c) (exec (mutate this mus) h')
            = eval (usedRegs c) h').
Proof.
  cbn zeta.
  assert (wf_Regs
            (exec (arr_push (stack (eval new_Regs ∅)) (Num 32768))
               (exec (set_add (inputRegs (eval new_Regs ∅)) (Num 2))
                  (exec (use (eval new_Regs ∅) REGISTER.B) (exec new_Regs ∅))))
            (eval new_Regs ∅)) as Hwf.
  { apply (bool_decide_unpack _). vm_compute. reflexivity. }
  split; [exact Hwf|]. exact (clone_equal_independent _ _ Hwf).
Defined.

Example clone_then_use_clone :
  let this := eval new_Regs ∅ in
  let h := exec (use this REGISTER.B) (exec new_Regs ∅) in
  let c := eval (clone this) h in
  let h' := exec (use c REGISTER.D) (exec (clone this) h) in
  eval (usedRegs this) h' = {[REGISTER.B]}
  ∧ eval (usedRegs c) h' = {[REGISTER.B; REGISTER.D]}.
Proof. cbn zeta. apply (bool_decide_unpack _). vm_compute. reflexivity. Qed.

(** ** Reading memory (C6) *)

Lemma new_Memory_loop_eq (N : nat) n : ∀ i ma,
  new_Memory_loop n i (mkMemory (replicate N x00) ma)
  = mkMemory (replicate N x00) (init_attr n i ma).
Proof.
  induction n as [|n IH]; intros i ma; [reflexivity|].
  cbn [new_Memory_loop init_attr memory memoryAttr].
  rewrite insert_replicate. apply IH.
Qed.

Lemma new_Memory_blank : new_Memory = blank_Memory.
Proof. apply new_Memory_loop_eq. Qed.

Lemma to_int32_mod16 a : to_int32 a mod 2^16 = a mod 2^16.
Proof.
  unfold to_int32.
  rewrite (Z.mod_eq (a + 2^31) (2^32)) by lia.
  replace (a + 2 ^ 31 - 2 ^ 32 * ((a + 2 ^ 31) / 2 ^ 32) - 2 ^ 31)
    with (a + (- (2^16 * ((a + 2 ^ 31) / 2 ^ 32))) * 2^16) by lia.
  apply Z.mod_add. lia.
Qed.

(** Masking with [MAX_MEM_SIZE - 1] is reduction modulo 65536. *)
Lemma js_and_mask a : js_and a (MAX_MEM_SIZE - 1) = a mod 65536.
Proof.
  unfold js_and.
  replace (to_int32 (MAX_MEM_SIZE - 1)) with (Z.ones 16) by reflexivity.
  rewrite Z.land_ones by lia. apply to_int32_mod16.
Qed.

Lemma byte_val_range b : 0 ≤ byte_val b < 256.
Proof.
  unfold byte_val. pose proof (Byte.to_N_bounded b) as Hb. lia.
Qed.

Lemma mem_read_range m i : 0 ≤ mem_read m i < 256.
Proof. apply byte_val_range. Qed.

Lemma getValueAt_range m a : 0 ≤ getValueAt m a < 256.
Proof. apply mem_read_range. Qed.

Lemma mask_in_bounds m a :
  wf_Memory m → is_Some (memory m !! Z.to_nat (js_and a (MAX_MEM_SIZE - 1))).
Proof.
  intros Hwf. apply lookup_lt_is_Some. rewrite js_and_mask.
  pose proof (Z.mod_pos_bound a 65536 ltac:(lia)).
  unfold wf_Memory, MAX_MEM_SIZE in Hwf. lia.
Qed.

Lemma wf_blank_Memory : wf_Memory blank_Memory.
Proof.
  unfold wf_Memory, blank_Memory. cbn [memory].
  rewrite length_replicate. by apply Z2Nat.id.
Qed.

Lemma setMemory_loop_length bytes : ∀ origin i m,
  length (memory (setMemory_loop bytes origin i m)) = length (memory m).
Proof.
  induction bytes as [|b bytes IH]; intros origin i m; [done|].
  cbn [setMemory_loop]. rewrite IH. cbn [memory]. apply length_insert.
Qed.

Lemma wf_setMemory m origin bytes : wf_Memory m → wf_Memory (setMemory m origin bytes).
Proof. unfold wf_Memory, setMemory. by rewrite setMemory_loop_length. Qed.

Lemma wf_new_Memory : wf_Memory new_Memory.
Proof. rewrite new_Memory_blank. apply wf_blank_Memory. Qed.

(** C6: [getWordValueAt] is the little-endian word made of the bytes at
    [a] and [a + 1], both indices taken modulo 65536 and both inside the
    array; at [a = 65535] the high byte is the byte at index 0. *)
Theorem getWordValueAt_little_endian (m : Memory) (a : Z) :
  wf_Memory m →
  getWordValueAt m a = getValueAt m a + 256 * getValueAt m (a + 1)
  ∧ getValueAt m a = mem_read m (a mod 65536)
  ∧ getValueAt m (a + 1) = mem_read m ((a + 1) mod 65536)
  ∧ is_Some (memory m !! Z.to_nat (a mod 65536))
  ∧ is_Some (memory m !! Z.to_nat ((a + 1) mod 65536))
  ∧ getWordValueAt m 65535 = mem_read m 65535 + 256 * mem_read m 0
  ∧ 0 ≤ getWordValueAt m a < 65536.
Proof.
  intros Hwf.
  pose proof (mask_in_bounds m a Hwf) as H0.
  pose proof (mask_in_bounds m (a + 1) Hwf) as H1.
  pose proof (getValueAt_range m a) as Hr0.
  pose proof (getValueAt_range m (a + 1)) as Hr1.
  unfold getWordValueAt, getValueAt in *. rewrite !js_and_mask in *.
  split_and!; try done; lia.
Qed.

Lemma getWordValueAt_little_endian_witness :
  let m := setMemory new_Memory 65535 [x34; x12] in
  wf_Memory m
  ∧ getWordValueAt m 65535 = getValueAt m 65535 + 256 * getValueAt m (65535 + 1)
  ∧ getValueAt m 65535 = mem_read m (65535 mod 65536)
  ∧ getValueAt m (65535 + 1) = mem_read m ((65535 + 1) mod 65536)
  ∧ is_Some (memory m !! Z.to_nat (65535 mod 65536))
  ∧ is_Some (memory m !! Z.to_nat ((65535 + 1) mod 65536))
  ∧ getWordValueAt m 65535 = mem_read m 65535 + 256 * mem_read m 0
  ∧ 0 ≤ getWordValueAt m 65535 < 65536.
Proof.
  cbn zeta.
  assert (wf_Memory (setMemory new_Memory 65535 [x34; x12])) as Hwf.
  { rewrite new_Memory_blank. vm_compute. reflexivity. }
  split; [exact Hwf|].
  exact (getWordValueAt_little_endian _ 65535 Hwf).
Defined.

Example getWordValueAt_wraps :
  getWordValueAt (setMemory new_Memory 65535 [x34; x12]) 65535 = 0x1234.
Proof. rewrite new_Memory_blank. vm_compute. reflexivity. Qed.

(** ** Operand resolution in [getOpcodeAt] (C4, C5, C7) *)

Lemma signed_byte_range b : 0 ≤ b < 256 → -128 ≤ signed_byte b < 128.
Proof. unfold signed_byte. case_decide; lia. Qed.

(** C4: for an opcode whose operand is a relative jump or relative loop
    target, [getOpcodeAt] returns the opcode with the value
    [a + 2 + d], [d] being the following byte read as a signed byte; with
    the opcode at 0x1000 and the following byte 0xFE the value is 0x1000. *)
Theorem getOpcodeAt_relative (fromValue : Z → Opcode) (m : Memory) (a : Z) :
  wf_Memory m →
  is_relative (valueType (fromValue (getValueAt m a))) = true →
  let opcode := fromValue (getValueAt m a) in
  let d := signed_byte (getValueAt m (a + 1)) in
  getOpcodeAt fromValue m a = Returns (set_value opcode (a + 2 + d))
  ∧ -128 ≤ d < 128
  ∧ (a = 0x1000 → getValueAt m (a + 1) = 0xFE →
     getOpcodeAt fromValue m a = Returns (set_value opcode 0x1000)).
Proof.
  intros Hwf Hrel. cbn zeta.
  pose proof (getValueAt_range m (a + 1)) as Hb.
  assert (getOpcodeAt fromValue m a
          = Returns (set_value (fromValue (getValueAt m a))
                       (a + 2 + signed_byte (getValueAt m (a + 1)))))
    as Hres.
  { unfold getOpcodeAt. fold (getValueAt m a).
    destruct (fromValue (getValueAt m a)) as [c t v].
    cbn [valueType] in Hrel. unfold signed_byte, set_value.
    cbn [value valueType code].
    destruct t; try discriminate Hrel;
      destruct (Z.leb_spec 128 (getValueAt m (a + 1)));
      case_decide; try lia; cbn [value valueType code];
      f_equal; f_equal; lia. }
  split; [done|]. split; [by apply signed_byte_range|].
  intros -> Hfe. rewrite Hres, Hfe. reflexivity.
Qed.

Lemma getOpcodeAt_relative_witness :
  let m := setMemory new_Memory 0x1000 [x18; xfe] in
  wf_Memory m
  ∧ is_relative (valueType (sample_table (getValueAt m 0x1000))) = true
  ∧ getOpcodeAt sample_table m 0x1000
    = Returns (mkOpcode 0x18 CODE_RELATIVE_LBL 0x1000).
Proof.
  cbn zeta.
  assert (wf_Memory (setMemory new_Memory 0x1000 [x18; xfe])) as Hwf.
  { rewrite new_Memory_blank. vm_compute. reflexivity. }
  assert (is_relative (valueType (sample_table
            (getValueAt (setMemory new_Memory 0x1000 [x18; xfe]) 0x1000)))
          = true) as Hrel.
  { rewrite new_Memory_blank. vm_compute. reflexivity. }
  split_and!; [exact Hwf|exact Hrel|].
  destruct (getOpcodeAt_relative sample_table _ 0x1000 Hwf Hrel) as (-> & _).
  rewrite new_Memory_blank. vm_compute. reflexivity.
Defined.

(** C5: a numeric byte operand is the following byte read as a signed
    byte (0x80 gives -128, 0x7F gives 127, 0x00 gives 0) and nothing is
    added to it; a port operand is the following byte as it is. *)
Theorem getOpcodeAt_byte_operand (fromValue : Z → Opcode) (m : Memory) (a : Z) :
  wf_Memory m →
  let opcode := fromValue (getValueAt m a) in
  let b := getValueAt m (a + 1) in
  (valueType opcode = NUMBER_BYTE →
     getOpcodeAt fromValue m a = Returns (set_value opcode (signed_byte b))
     ∧ (b = 0x80 → getOpcodeAt fromValue m a = Returns (set_value opcode (-128)))
     ∧ (b = 0x7F → getOpcodeAt fromValue m a = Returns (set_value opcode 127))
     ∧ (b = 0x00 → getOpcodeAt fromValue m a = Returns (set_value opcode 0)))
  ∧ (valueType opcode = PORT_LBL →
     getOpcodeAt fromValue m a = Returns (set_value opcode b) ∧ 0 ≤ b < 256).
Proof.
  intros Hwf. cbn zeta.
  pose proof (getValueAt_range m (a + 1)) as Hb.
  split; intros Hty.
  - assert (getOpcodeAt fromValue m a
            = Returns (set_value (fromValue (getValueAt m a))
                         (signed_byte (getValueAt m (a + 1))))) as Hres.
    { unfold getOpcodeAt. fold (getValueAt m a).
      destruct (fromValue (getValueAt m a)) as [c t v].
      cbn [valueType] in Hty. subst t. unfold signed_byte, set_value.
      cbn [value valueType code].
      destruct (Z.leb_spec 128 (getValueAt m (a + 1)));
        case_decide; try lia; reflexivity. }
    split_and!; [done|intros Hv..]; by rewrite Hres, Hv.
  - split; [|done].
    unfold getOpcodeAt. fold (getValueAt m a). by rewrite Hty.
Qed.

Lemma getOpcodeAt_byte_operand_witness :
  let m := setMemory new_Memory 0x8000 [x3e; x80; xd3; xfe] in
  wf_Memory m
  ∧ getOpcodeAt sample_table m 0x8000 = Returns (mkOpcode 0x3E NUMBER_BYTE (-128))
  ∧ getOpcodeAt sample_table m 0x8002 = Returns (mkOpcode 0xD3 PORT_LBL 0xFE).
Proof.
  cbn zeta.
  assert (wf_Memory (setMemory new_Memory 0x8000 [x3e; x80; xd3; xfe])) as Hwf.
  { rewrite new_Memory_blank. vm_compute. reflexivity. }
  split; [exact Hwf|].
  destruct (getOpcodeAt_byte_operand sample_table _ 0x8000 Hwf) as [Hnum _].
  destruct (getOpcodeAt_byte_operand sample_table _ 0x8002 Hwf) as [_ Hport].
  split.
  - destruct Hnum as (_ & -> & _).
    + rewrite new_Memory_blank. vm_compute. reflexivity.
    + rewrite new_Memory_blank. vm_compute. reflexivity.
    + rewrite new_Memory_blank. vm_compute. reflexivity.
  - destruct Hport as (-> & _).
    + rewrite new_Memory_blank. vm_compute. reflexivity.
    + rewrite new_Memory_blank. vm_compute. reflexivity.
Defined.

(** C7: when the operand kind of the decoded opcode is none of the kinds
    [getOpcodeAt] recognises, the call ends in the assertion failure and
    returns nothing; for every recognised kind it returns. *)
Theorem getOpcodeAt_unrecognized (fromValue : Z → Opcode) (m : Memory) (a : Z) :
  (valueType (fromValue (getValueAt m a)) ∉ recognized →
     getOpcodeAt fromValue m a = AssertionError)
  ∧ (valueType (fromValue (getValueAt m a)) ∈ recognized →
     ∃ opcode, getOpcodeAt fromValue m a = Returns opcode).
Proof.
  unfold getOpcodeAt, recognized. fold (getValueAt m a).
  destruct (valueType (fromValue (getValueAt m a))) eqn:Hty;
    (split; [intros Hn|intros Hy]); try (by eexists);
    try (exfalso; apply Hn; rewrite !elem_of_cons; tauto);
    try reflexivity.
  exfalso. rewrite !elem_of_cons, elem_of_nil in Hy.
  intuition discriminate.
Qed.

Lemma getOpcodeAt_unrecognized_witness :
  let m := setMemory new_Memory 0x4000 [xed; xb0] in
  (valueType (sample_table (getValueAt m 0x4000)) ∉ recognized)
  ∧ getOpcodeAt sample_table m 0x4000 = AssertionError.
Proof.
  cbn zeta.
  assert (valueType (sample_table
            (getValueAt (setMemory new_Memory 0x4000 [xed; xb0]) 0x4000))
          ∉ recognized) as Hn.
  { rewrite new_Memory_blank. apply (bool_decide_unpack _).
    vm_compute. reflexivity. }
  split; [exact Hn|].
  exact (proj1 (getOpcodeAt_unrecognized sample_table _ 0x4000) Hn).
Defined.

(** ** Attribute tagging does not wrap (C2) *)

Lemma addAttributeAt_loop_below n : ∀ address attr ma j,
  j < address →
  addAttributeAt_loop n address attr ma !! j = ma !! j.
Proof.
  induction n as [|n IH]; intros address attr ma j Hj; [done|].
  cbn [addAttributeAt_loop]. rewrite IH by lia.
  unfold attr_or. apply lookup_insert_ne. lia.
Qed.

(** Tagging never touches an address below the one it starts at, however
    long the tagged range is. *)
Lemma addAttributeAt_below m address length attr j :
  j < address →
  getAttributeAt (addAttributeAt m address length attr) j = getAttributeAt m j.
Proof. intros Hj. by apply addAttributeAt_loop_below. Qed.

(** C2 fails on the code: tagging two bytes from 65535 on a new memory
    writes the indices 65535 and 65536; address 0 keeps [UNUSED], and
    [getAttributeAt] reads index 65536 itself, not address 0. *)
Theorem addAttributeAt_no_wrap :
  let m := addAttributeAt new_Memory 65535 2 MemAttribute.CODE in
  getAttributeAt m 65535 = Some MemAttribute.CODE
  ∧ getAttributeAt m 0 = Some MemAttribute.UNUSED
  ∧ getAttributeAt m 65536 = Some MemAttribute.CODE
  ∧ getAttributeAt new_Memory 65536 = None
  ∧ getAttributeAt new_Memory ((65535 + 1) mod 65536) = Some MemAttribute.UNUSED.
Proof. rewrite new_Memory_blank. vm_compute. split_and!; reflexivity. Qed.
